(** * The void-pointer tutorial page: interpretation selector and quiz engine

    A shallow embedding of the state logic of [src/app/page.tsx]: the two
    static tables ([reinterpretations], [quizQuestions]), the three pieces of
    React state of the [Home] component ([selectedId], [quizAnswers],
    [submitted]), the two derived values ([selectedInterpretation], [score]),
    the click handlers that update the state, and the rendering of the
    eight-cell byte grid.

    JavaScript values are modelled as far as the page can produce them: an
    array is a list of slots, a slot being either empty (a hole left by a
    write past the end) or a value; a value stored in [quizAnswers] is a number
    or [undefined]. *)

From Stdlib Require Import ZArith NArith Ascii String.
From stdpp Require Import base numbers list strings relations.
From stdpp Require Import pretty.

Local Open Scope string_scope.
Local Open Scope nat_scope.

(** ** Static data *)

Module Interpretation.
Record t : Type := Build {
  id : string;
  label : string;
  snippet : string;
  explanation : string;
  view : list string
}.
End Interpretation.

Module QuizQuestion.
Record t : Type := Build {
  question : string;
  options : list string;
  answer : Z;
  explanation : string
}.
End QuizQuestion.

(** The double-quote character, which a string literal cannot hold. *)
Definition dquote : string := String (ascii_of_nat 34) EmptyString.

Definition reinterpretations : list Interpretation.t :=
  [ Interpretation.Build
      "char"
      "char*"
      "void *buffer = malloc(8);
char *text = (char*)buffer;
text[0] = 'A';"
      "Treat the raw memory as characters. Great for byte-by-byte access, but you must ensure there is enough allocated space."
      ["'A' (0x41)"; "'\0'"; "?"; "?"; "?"; "?"; "?"; "?"];
    Interpretation.Build
      "int"
      "int*"
      "void *buffer = malloc(sizeof(int));
int *value = static_cast<int*>(buffer);
*value = 1024;"
      "Reinterpret the bytes as a 32-bit integer. Alignment matters: the buffer must be suitably aligned for the target type."
      ["0x00"; "0x04"; "0x00"; "0x00"; "?"; "?"; "?"; "?"];
    Interpretation.Build
      "double"
      "double*"
      "alignas(double) std::byte buffer[8];
void *raw = buffer;
double *pi = static_cast<double*>(raw);
*pi = 3.1415926535;"
      "Large types demand careful alignment. Here the same bytes encode an IEEE-754 double. Misaligned access on some CPUs causes crashes."
      ["0x18"; "0x2D"; "0x44"; "0x54"; "0xFB"; "0x21"; "0x09"; "0x40"];
    Interpretation.Build
      "struct"
      "struct Example*"
      ("struct Example { int id; float ratio; };
void *opaque = create();
Example *ex = reinterpret_cast<Example*>(opaque);
printf(" ++ dquote ++ "%d %.2f\n" ++ dquote ++ ", ex->id, ex->ratio);")
      "Opaque APIs often return void pointers to hide implementation details. The caller must cast back to the concrete type safely."
      ["id: 7"; "id bytes..."; "ratio: 0.75f"; "..."] ].

Definition quizQuestions : list QuizQuestion.t :=
  [ QuizQuestion.Build
      "Why does C provide void pointers?"
      [ "To automatically convert data to any type without casting.";
        "To store addresses generically when the pointed-to type is unknown.";
        "To let the compiler infer the correct type later.";
        "To prevent manual memory management." ]
      1
      "A void pointer represents an address without a declared pointed-to type, which is useful for generic containers and APIs.";
    QuizQuestion.Build
      "Which operation is illegal directly on a void pointer?"
      [ "Comparing the address with another pointer.";
        "Assigning NULL.";
        "Incrementing with pointer arithmetic.";
        "Casting to a typed pointer." ]
      2
      "Pointer arithmetic needs the size of the pointed-to type. A void pointer lacks that info, so you must cast before arithmetic.";
    QuizQuestion.Build
      "What must you guarantee before casting a void* back to a struct*?"
      [ "The struct has only primitive fields.";
        "The memory was aligned and originally allocated for that struct type.";
        "The struct is marked with typedef.";
        "The struct size is less than 16 bytes." ]
      1
      "You must cast only to the type that was originally stored there and respect alignment requirements." ].

(** ** The address column: [Number.prototype.toString(16)] and [toUpperCase] *)

Definition hexDigit (d : N) : ascii :=
  default "0"%char (list_ascii_of_string "0123456789abcdef" !! N.to_nat d).

Fixpoint toString16_go (fuel : nat) (n : N) (acc : string) : string :=
  match fuel with
  | O => acc
  | S fuel' =>
      let acc' := String (hexDigit (n mod 16)) acc in
      if (n / 16 =? 0)%N then acc' else toString16_go fuel' (n / 16) acc'
  end.

(** A number of [k] bits has at most [k] hexadecimal digits, and zero has one. *)
Definition toString16 (n : N) : string :=
  toString16_go (S (N.size_nat n)) n EmptyString.

Definition upperChar (c : ascii) : ascii :=
  let k := nat_of_ascii c in
  if (97 <=? k)%nat && (k <=? 122)%nat then ascii_of_nat (k - 32) else c.

Fixpoint toUpperCase (s : string) : string :=
  match s with
  | EmptyString => EmptyString
  | String c s' => String (upperChar c) (toUpperCase s')
  end.

Module PointerBlock.
Record t : Type := Build { index : nat; address : string }.
End PointerBlock.

(** [Array.from({ length: 8 }, (_, index) => ({ index, address }))] *)
Definition pointerBlocks : list PointerBlock.t :=
  imap (fun index (_ : unit) =>
          PointerBlock.Build index
            ("0x" ++ toUpperCase (toString16 (0x1000 + N.of_nat index))))
       (replicate 8 tt).

(** ** JavaScript arrays of answers *)

(** What a slot of [quizAnswers] can hold at run time. The declared type is
    [number[]]; [undefined] appears only when a sparse array is copied. *)
Inductive jsval : Type :=
  | Undefined
  | Number (n : Z).

#[global] Instance jsval_eq_dec : EqDecision jsval.
Proof. solve_decision. Defined.

(** An array is a list of slots; [None] is an empty slot (a hole). *)
Definition slot : Type := option jsval.

(** [[...prev]]: the iterator visits every index below the length and yields
    [undefined] for a hole, so the copy is dense. *)
Definition spread (a : list slot) : list slot :=
  (fun s : slot => Some (default Undefined s)) <$> a.

(** [next[i] = v]: an in-range write replaces the slot; a write at or past the
    length extends the array, leaving holes in between. *)
Definition assignIndex (a : list slot) (i : nat) (v : jsval) : list slot :=
  if decide (i < length a) then <[i := Some v]> a
  else a ++ replicate (i - length a) None ++ [Some v].

(** [Array.prototype.reduce] with an initial value: the callback receives the
    accumulator, the element and its index; holes are skipped. *)
Fixpoint reduceFrom {A : Type} (f : A → jsval → nat → A)
    (index : nat) (a : list slot) (acc : A) : A :=
  match a with
  | [] => acc
  | None :: a' => reduceFrom f (S index) a' acc
  | Some v :: a' => reduceFrom f (S index) a' (f acc v index)
  end.

Definition reduce {A : Type} (f : A → jsval → nat → A) (a : list slot) (init : A) : A :=
  reduceFrom f 0 a init.

(** ** The state of the [Home] component *)

Record PageState : Type := mkPageState {
  selectedId : string;
  quizAnswers : list slot;
  submitted : bool
}.

(** The sentinel stored for a question that has no answer yet. *)
Definition unanswered : jsval := Number (-1).

(** *** Interpretation selector *)

(** [reinterpretations.find((entry) => entry.id === selectedId) ?? reinterpretations[0]];
    [None] stands for [undefined], on which the render would throw. *)
Definition selectedInterpretation (selectedId : string) : option Interpretation.t :=
  match List.find (fun entry => bool_decide (Interpretation.id entry = selectedId))
                  reinterpretations with
  | Some entry => Some entry
  | None => reinterpretations !! 0
  end.

(** [setSelectedId(id)], the spec's [select(id)]. *)
Definition select (id : string) (s : PageState) : PageState :=
  {| selectedId := id; quizAnswers := quizAnswers s; submitted := submitted s |}.

(** The spec's [current()]: the derived value of the present render. *)
Definition current (s : PageState) : option Interpretation.t :=
  selectedInterpretation (selectedId s).

(** *** The byte grid *)

(** [selectedInterpretation.view[block.index] ?? "—"] *)
Definition byteCell (interpretation : Interpretation.t) (block : PointerBlock.t) : string :=
  default "—" (Interpretation.view interpretation !! PointerBlock.index block).

(** [pointerBlocks.map((block) => ...)]: the text of the eight cells. *)
Definition byteGrid (interpretation : Interpretation.t) : list string :=
  byteCell interpretation <$> pointerBlocks.

(** *** Quiz engine, for any question bank *)

Section QuizEngine.
Variable questions : list QuizQuestion.t.

(** [Array.from({ length: quizQuestions.length }, () => -1)] *)
Definition blankAnswers : list slot :=
  replicate (length questions) (Some unanswered).

(** [useState] initial values; the first interpretation exists in the table,
    so the fallback of [from_option] is never taken. *)
Definition initialState : PageState :=
  {| selectedId := from_option Interpretation.id EmptyString (reinterpretations !! 0);
     quizAnswers := blankAnswers;
     submitted := false |}.

(** The option button's [onClick] for question [index], option [optionIndex]:
    [if (submitted) return; setQuizAnswers((prev) => { const next = [...prev];
    next[index] = optionIndex; return next; })]. Events are handled one at a
    time, each on the state of the latest render. *)
Definition chooseAnswer (index optionIndex : nat) (s : PageState) : PageState :=
  if submitted s then s
  else {| selectedId := selectedId s;
          quizAnswers := assignIndex (spread (quizAnswers s)) index
                           (Number (Z.of_nat optionIndex));
          submitted := submitted s |}.

(** Submit button: [setSubmitted(true)]. *)
Definition submit (s : PageState) : PageState :=
  {| selectedId := selectedId s; quizAnswers := quizAnswers s; submitted := true |}.

(** Reset button: [setSubmitted(false); setQuizAnswers(Array.from(...))]. *)
Definition reset (s : PageState) : PageState :=
  {| selectedId := selectedId s; quizAnswers := blankAnswers; submitted := false |}.

(** [quizQuestions[index]?.answer] *)
Definition correctAnswer (index : nat) : jsval :=
  match questions !! index with
  | Some q => Number (QuizQuestion.answer q)
  | None => Undefined
  end.

(** [quizAnswers.reduce((total, answer, index) =>
      answer === quizQuestions[index]?.answer ? total + 1 : total, 0)] *)
Definition score (s : PageState) : nat :=
  reduce (fun total answer index =>
            if decide (answer = correctAnswer index) then total + 1 else total)
         (quizAnswers s) 0.

(** **** The controls the page renders *)

Inductive Op : Type :=
  | ChooseAnswer (index optionIndex : nat)
  | Submit
  | Reset
  | Select (id : string).

Definition runOp (op : Op) (s : PageState) : PageState :=
  match op with
  | ChooseAnswer index optionIndex => chooseAnswer index optionIndex s
  | Submit => submit s
  | Reset => reset s
  | Select id => select id s
  end.

(** An option button exists for each [(question, index)] of
    [quizQuestions.map] and each [(option, optionIndex)] of
    [question.options.map]; an interpretation button for each entry of
    [reinterpretations.map]; Submit and Reset always. *)
Inductive rendered : Op → Prop :=
  | rendered_option index q optionIndex option :
      questions !! index = Some q →
      QuizQuestion.options q !! optionIndex = Some option →
      rendered (ChooseAnswer index optionIndex)
  | rendered_submit : rendered Submit
  | rendered_reset : rendered Reset
  | rendered_interpretation interpretation :
      interpretation ∈ reinterpretations →
      rendered (Select (Interpretation.id interpretation)).

(** One interaction: a click on a rendered control runs its handler. *)
Inductive step (s : PageState) : PageState → Prop :=
  | step_click op : rendered op → step s (runOp op s).

(** The states the page can be in: those reached from the initial state by
    any sequence of interactions. *)
Definition reachable : PageState → Prop := rtc step initialState.

(** The invariant of the answer sequence: one entry per question, each the
    sentinel or the index of one of that question's options. *)
Definition answerOk (q : QuizQuestion.t) (e : slot) : Prop :=
  e = Some unanswered ∨
  ∃ optionIndex : nat,
    e = Some (Number (Z.of_nat optionIndex)) ∧
    optionIndex < length (QuizQuestion.options q).

Definition answersInvariant (s : PageState) : Prop :=
  Forall2 answerOk questions (quizAnswers s).
End QuizEngine.

(** *** Histories of answers, to state what [score] counts *)

(** The dense answer sequence whose entry [i] is the number [g i]. *)
Definition answersOf (g : nat → Z) (n : nat) : list slot :=
  (λ i : nat, Some (Number (g i))) <$> seq 0 n.

(** A sequence of [chooseAnswer] calls [(index, optionIndex)], oldest first,
    handled one after the other. *)
Definition runCalls (calls : list (nat * nat)) (s : PageState) : PageState :=
  foldl (λ s c, chooseAnswer c.1 c.2 s) s calls.

(** The latest answer that [calls] recorded for question [index]; the
    sentinel -1 when no call was about that question. *)
Definition latestAnswer (calls : list (nat * nat)) (index : nat) : Z :=
  foldl (λ latest c, if decide (c.1 = index) then Z.of_nat c.2 else latest)
        (-1)%Z calls.

(** Question [index] counts as correct when its latest recorded answer equals
    its correct index. *)
Definition countsAsCorrect (questions : list QuizQuestion.t)
    (calls : list (nat * nat)) (index : nat) : bool :=
  match questions !! index with
  | Some q => bool_decide (latestAnswer calls index = QuizQuestion.answer q)
  | None => false
  end.

(** The number of questions that count as correct. *)
Definition correctCount (questions : list QuizQuestion.t)
    (calls : list (nat * nat)) : nat :=
  length (List.filter (countsAsCorrect questions calls) (seq 0 (length questions))).


(** ** IEEE-754 binary64 bytes, to compare the double's byte view with

    These definitions follow the IEEE-754 standard, not the page: the page
    computes no bytes, its byte views are authored strings. They give the
    bytes that a decimal number has as a binary64 value, and the bytes that
    the display strings of a view spell. *)

(** [n / d] rounded to the nearest integer, ties to the even one ([0 < d]). *)
Definition roundHalfEven (n d : Z) : Z :=
  let q := (n / d)%Z in
  let r := (n mod d)%Z in
  if (2 * r <? d)%Z then q
  else if (d <? 2 * r)%Z then (q + 1)%Z
  else if Z.even q then q else (q + 1)%Z.

(** The 64-bit pattern of the binary64 value nearest to the positive rational
    [num / den]: exponent [e] with [2^e <= num / den < 2^(e+1)], 53-bit
    significand rounded to nearest even, biased exponent in bits 52..62.
    [None] outside the positive normal range. *)
Definition binary64Bits (num den : Z) : option Z :=
  if (0 <? num)%Z && (0 <? den)%Z then
    let e0 := (Z.log2 num - Z.log2 den)%Z in
    let reaches (e : Z) : bool :=
      if (0 <=? e)%Z then (den * 2 ^ e <=? num)%Z else (den <=? num * 2 ^ (- e))%Z in
    let e := if reaches e0 then e0 else (e0 - 1)%Z in
    let shift := (52 - e)%Z in
    let m := if (0 <=? shift)%Z then roundHalfEven (num * 2 ^ shift) den
             else roundHalfEven num (den * 2 ^ (- shift)) in
    let carried := (m =? 2 ^ 53)%Z in
    let m' := if carried then (2 ^ 52)%Z else m in
    let e' := if carried then (e + 1)%Z else e in
    if (-1022 <=? e')%Z && (e' <=? 1023)%Z
    then Some ((e' + 1023) * 2 ^ 52 + (m' - 2 ^ 52))%Z
    else None
  else None.

(** The eight bytes of a 64-bit pattern, least significant first. *)
Definition littleEndianBytes (bits : Z) : list Z :=
  (λ i : nat, Z.land (Z.shiftr bits (8 * Z.of_nat i)) 255) <$> seq 0 8.

(** The little-endian binary64 bytes of the decimal [num / den]. *)
Definition ieee754LittleEndian (num den : Z) : option (list Z) :=
  littleEndianBytes <$> binary64Bits num den.

Definition hexDigitValue (c : ascii) : option Z :=
  let k := Z.of_nat (nat_of_ascii c) in
  if (48 <=? k)%Z && (k <=? 57)%Z then Some (k - 48)%Z
  else if (65 <=? k)%Z && (k <=? 70)%Z then Some (k - 55)%Z
  else if (97 <=? k)%Z && (k <=? 102)%Z then Some (k - 87)%Z
  else None.

(** The byte that a display string of the form 0xHH spells. *)
Definition displayedByte (text : string) : option Z :=
  match text with
  | String "0" (String "x" (String h (String l EmptyString))) =>
      match hexDigitValue h, hexDigitValue l with
      | Some hi, Some lo => Some (16 * hi + lo)%Z
      | _, _ => None
      end
  | _ => None
  end.

(** The bytes a whole view spells, when every entry spells one. *)
Definition displayedBytes (view : list string) : option (list Z) :=
  mapM displayedByte view.

(** ** What the page renders

    Each control is rendered from the state of the present render; its
    [afterClick] is the state the page is in once its handler has run. *)

(** *** Interpretation buttons *)

Module InterpretationButton.
Record t : Type := Build {
  key : string;
  className : string;
  text : string;
  afterClick : PageState
}.
End InterpretationButton.

(** [const isActive = selectedId === interpretation.id] *)
Definition isActive (s : PageState) (interpretation : Interpretation.t) : bool :=
  bool_decide (selectedId s = Interpretation.id interpretation).

Definition interpretationButton (s : PageState) (interpretation : Interpretation.t)
    : InterpretationButton.t :=
  {| InterpretationButton.key := Interpretation.id interpretation;
     InterpretationButton.className :=
       "rounded-full px-4 py-2 text-sm font-medium transition " ++
       (if isActive s interpretation
        then "bg-emerald-400 text-slate-950 shadow-lg shadow-emerald-500/30"
        else "border border-white/20 bg-white/5 text-slate-200 hover:border-emerald-300/60 hover:text-white");
     InterpretationButton.text := Interpretation.label interpretation;
     InterpretationButton.afterClick := select (Interpretation.id interpretation) s |}.

(** [reinterpretations.map((interpretation) => <button ... />)] *)
Definition interpretationButtons (s : PageState) : list InterpretationButton.t :=
  interpretationButton s <$> reinterpretations.

(** *** Question cards *)

(** [quizAnswers[index]]: a hole, or an index past the end, reads [undefined]. *)
Definition arrayGet (a : list slot) (i : nat) : jsval :=
  match a !! i with
  | Some (Some v) => v
  | _ => Undefined
  end.

(** The card's colour: [submitted && userAnswer !== -1 ? (userAnswer ===
    question.answer ? emerald : rose) : plain]. *)
Definition answerClassname (isSubmitted : bool) (userAnswer : jsval)
    (q : QuizQuestion.t) : string :=
  if isSubmitted && bool_decide (userAnswer ≠ Number (-1)) then
    if decide (userAnswer = Number (QuizQuestion.answer q))
    then "border-emerald-400/60 bg-emerald-500/10"
    else "border-rose-400/60 bg-rose-500/10"
  else "border-white/10 bg-white/5".

(** The option's colour: [submitted && optionIsAnswer ? strong : chosen ?
    light : plain]. *)
Definition highlight (isSubmitted : bool) (userAnswer : jsval)
    (q : QuizQuestion.t) (optionIndex : nat) : string :=
  let chosen := bool_decide (userAnswer = Number (Z.of_nat optionIndex)) in
  let optionIsAnswer := bool_decide (Z.of_nat optionIndex = QuizQuestion.answer q) in
  if isSubmitted && optionIsAnswer then "border-emerald-400/60 bg-emerald-500/20"
  else if chosen then "border-emerald-400/40 bg-emerald-500/10"
  else "border-white/10 bg-black/20 hover:border-emerald-300/50 hover:text-white".

Module OptionButton.
Record t : Type := Build {
  key : string;
  className : string;
  text : string;
  afterClick : PageState
}.
End OptionButton.

Module QuestionCard.
Record t : Type := Build {
  key : string;
  className : string;
  number : nat;
  prompt : string;
  optionButtons : list OptionButton.t;
  explanation : option string
}.
End QuestionCard.

(** [question.options.map((option, optionIndex) => <button ... />)] *)
Definition optionButtons (s : PageState) (index : nat) (q : QuizQuestion.t)
    : list OptionButton.t :=
  imap (λ optionIndex option,
          {| OptionButton.key := option;
             OptionButton.className :=
               "rounded-2xl border px-4 py-3 text-left text-sm transition sm:text-base " ++
               highlight (submitted s) (arrayGet (quizAnswers s) index) q optionIndex;
             OptionButton.text := option;
             OptionButton.afterClick := chooseAnswer index optionIndex s |})
       (QuizQuestion.options q).

Definition questionCard (s : PageState) (index : nat) (q : QuizQuestion.t)
    : QuestionCard.t :=
  {| QuestionCard.key := QuizQuestion.question q;
     QuestionCard.className :=
       "rounded-3xl border " ++
       answerClassname (submitted s) (arrayGet (quizAnswers s) index) q ++
       " p-6 sm:p-8";
     QuestionCard.number := index + 1;
     QuestionCard.prompt := QuizQuestion.question q;
     QuestionCard.optionButtons := optionButtons s index q;
     QuestionCard.explanation :=
       if submitted s then Some ("Explanation: " ++ QuizQuestion.explanation q)
       else None |}.

(** [quizQuestions.map((question, index) => ...)] *)
Definition questionCards (questions : list QuizQuestion.t) (s : PageState)
    : list QuestionCard.t :=
  imap (questionCard s) questions.

(** *** The results line *)

(** [score === quizQuestions.length ? "Perfect!" : "Review ..."] *)
Definition verdict (questions : list QuizQuestion.t) (s : PageState) : string :=
  if decide (score questions s = length questions) then "Perfect!"
  else "Review the sections above and try again.".

(** The paragraph beside the buttons; a count is printed in decimal. *)
Definition resultsLine (questions : list QuizQuestion.t) (s : PageState) : string :=
  if submitted s
  then "You scored " ++ pretty (score questions s) ++ " / " ++
       pretty (length questions) ++ ". " ++ verdict questions s
  else "Select one answer per question and submit when ready.".

(** *** Every state one click away *)

Definition clickTargets (questions : list QuizQuestion.t) (s : PageState)
    : list PageState :=
  (InterpretationButton.afterClick <$> interpretationButtons s) ++
  mjoin ((λ card, OptionButton.afterClick <$> QuestionCard.optionButtons card)
           <$> questionCards questions s) ++
  [reset questions s; submit s].

(** The cards drawn in the colour of a right, and of a wrong, answer. *)
Definition isRightCard (card : QuestionCard.t) : bool :=
  bool_decide (QuestionCard.className card =
               "rounded-3xl border border-emerald-400/60 bg-emerald-500/10 p-6 sm:p-8").

Definition isWrongCard (card : QuestionCard.t) : bool :=
  bool_decide (QuestionCard.className card =
               "rounded-3xl border border-rose-400/60 bg-rose-500/10 p-6 sm:p-8").

(** A sequence of operations, oldest first. *)
Definition runOps (questions : list QuizQuestion.t) (ops : list Op) (s : PageState)
    : PageState :=
  foldl (λ s op, runOp questions op s) s ops.

Arguments rendered_option {questions} index q optionIndex option _ _.

(** The page itself runs the engine on its own question bank. *)
Definition pageInitialState : PageState := initialState quizQuestions.

(** ** Facts about the tables *)

Lemma reinterpretations_first :
  ∃ entry, reinterpretations !! 0 = Some entry ∧ Interpretation.id entry = "char".
Proof. eexists. split; reflexivity. Qed.

Lemma reinterpretations_ids :
  Interpretation.id <$> reinterpretations = ["char"; "int"; "double"; "struct"].
Proof. reflexivity. Qed.

(** Membership in the four-entry table, by cases. *)
Ltac table_cases H :=
  unfold reinterpretations in H;
  repeat (apply elem_of_cons in H as [H | H]; [subst | ]);
  [ .. | apply elem_of_nil in H; destruct H ].

Lemma find_by_id_hit entry :
  entry ∈ reinterpretations →
  List.find (fun e => bool_decide (Interpretation.id e = Interpretation.id entry))
            reinterpretations = Some entry.
Proof. intros H. table_cases H; vm_compute; reflexivity. Qed.

Lemma find_by_id_miss id :
  (∀ entry, entry ∈ reinterpretations → Interpretation.id entry ≠ id) →
  List.find (fun e => bool_decide (Interpretation.id e = id)) reinterpretations = None.
Proof.
  intros Hmiss.
  induction reinterpretations as [| e table IH]; [reflexivity |].
  cbn [List.find].
  rewrite bool_decide_eq_false_2 by (apply Hmiss; left).
  apply IH. intros entry Hin. apply Hmiss. by right.
Qed.

(** ** Interpretation selector *)

(** C8. For every id that is the identifier of an entry of the table,
    [select(id)] followed by [current()] returns that entry, and it is the
    only entry of the table with this identifier. *)
Theorem select_valid_then_current (entry : Interpretation.t) (s : PageState) :
  entry ∈ reinterpretations →
  current (select (Interpretation.id entry) s) = Some entry ∧
  ∀ other, other ∈ reinterpretations →
           Interpretation.id other = Interpretation.id entry → other = entry.
Proof.
  intros Hin. split.
  - unfold current, select, selectedInterpretation; cbn [selectedId].
    by rewrite find_by_id_hit.
  - intros other Hother Hid.
    pose proof (find_by_id_hit other Hother) as Hfind.
    rewrite Hid, (find_by_id_hit entry Hin) in Hfind. congruence.
Qed.

Lemma select_valid_then_current_witness :
  ∃ entry,
    reinterpretations !! 1 = Some entry ∧
    current (select "int" pageInitialState) = Some entry.
Proof.
  eexists. split; [reflexivity |].
  match goal with
  | |- _ = Some ?e =>
      assert (Hin : e ∈ reinterpretations)
        by (apply list_elem_of_lookup; exists 1; reflexivity);
      exact (proj1 (select_valid_then_current e pageInitialState Hin))
  end.
Defined.

(** C2, as stated, fails: after "double" was selected, selecting an id that
    matches no entry does not keep the double entry current. *)
Lemma select_unknown_changes_current :
  ¬ (∀ (s : PageState) (id : string),
       (∀ entry, entry ∈ reinterpretations → Interpretation.id entry ≠ id) →
       current (select id s) = current s).
Proof.
  intros Hclaim.
  specialize (Hclaim (select "double" pageInitialState) "bogus").
  assert (Hmiss : ∀ entry, entry ∈ reinterpretations →
                           Interpretation.id entry ≠ "bogus").
  { intros entry Hin. table_cases Hin; discriminate. }
  specialize (Hclaim Hmiss). vm_compute in Hclaim. discriminate Hclaim.
Qed.

(** C2, amended. [select(id)] with an id that matches no entry raises no
    error and makes [current()] the default first entry of the table, whatever
    was selected before; this is also what [current()] returns when no
    selection was ever made. *)
Theorem select_unknown_falls_back (questions : list QuizQuestion.t)
    (s : PageState) (id : string) :
  (∀ entry, entry ∈ reinterpretations → Interpretation.id entry ≠ id) →
  is_Some (current (select id s)) ∧
  current (select id s) = reinterpretations !! 0 ∧
  current (select id s) = current (initialState questions).
Proof.
  intros Hmiss.
  assert (Hcur : current (select id s) = reinterpretations !! 0).
  { unfold current, select, selectedInterpretation; cbn [selectedId].
    by rewrite find_by_id_miss. }
  rewrite Hcur. split; [by eexists | split; reflexivity].
Qed.

Lemma select_unknown_falls_back_witness :
  current (select "bogus" (select "double" pageInitialState)) = reinterpretations !! 0.
Proof.
  refine (proj1 (proj2 (select_unknown_falls_back quizQuestions
                          (select "double" pageInitialState) "bogus" _))).
  intros entry Hin. table_cases Hin; discriminate.
Defined.

(** The encoder on values whose binary64 patterns are well known: 1, 0.1,
    1/3, a tie rounded to even, the smallest normal and the largest finite
    number, and a number that rounds past the largest. *)
Example binary64Bits_known_values :
  binary64Bits 1 1 = Some 0x3FF0000000000000%Z ∧
  binary64Bits 1 10 = Some 0x3FB999999999999A%Z ∧
  binary64Bits 1 3 = Some 0x3FD5555555555555%Z ∧
  binary64Bits (2 ^ 53 + 1) 1 = Some 0x4340000000000000%Z ∧
  binary64Bits (2 ^ 53 + 3) 1 = Some 0x4340000000000002%Z ∧
  binary64Bits 1 (2 ^ 1022) = Some 0x0010000000000000%Z ∧
  binary64Bits (2 ^ 1024 - 2 ^ 970 - 1) 1 = Some 0x7FEFFFFFFFFFFFFF%Z ∧
  binary64Bits (2 ^ 1024 - 2 ^ 970) 1 = None.
Proof. repeat split; vm_compute; reflexivity. Qed.

Lemma roundHalfEven_nearest (n d : Z) :
  (0 < d)%Z → (2 * Z.abs (n - d * roundHalfEven n d) ≤ d)%Z.
Proof.
  intros Hd. unfold roundHalfEven.
  pose proof (Z.div_mod n d ltac:(lia)) as Hdiv.
  pose proof (Z.mod_pos_bound n d Hd) as Hmod.
  repeat case_match; lia.
Qed.

(** The two patterns checked without the encoder. A binary64 value in [2, 4)
    with 53-bit significand [m] is [m / 2^51] and has the pattern
    [1024 * 2^52 + (m - 2^52)]; it is the value nearest to [num / den] when
    it lies within half a unit of [2^-51] of it. The significand of
    0x400921FB54411744 is that near to 3.1415926535; the significand of
    0x400921FB54442D18 is that near to 3.141592653589793 and farther from
    3.1415926535. *)
Example binary64_patterns_checked :
  let near (m num den : Z) : Prop :=
    (2 ^ 52 ≤ m < 2 ^ 53 ∧ 2 * Z.abs (m * den - num * 2 ^ 51) < den)%Z in
  near 0x1921FB54411744%Z 31415926535%Z 10000000000%Z ∧
  (1024 * 2 ^ 52 + (0x1921FB54411744 - 2 ^ 52) = 0x400921FB54411744)%Z ∧
  near 0x1921FB54442D18%Z 3141592653589793%Z 1000000000000000%Z ∧
  (1024 * 2 ^ 52 + (0x1921FB54442D18 - 2 ^ 52) = 0x400921FB54442D18)%Z ∧
  ¬ near 0x1921FB54442D18%Z 31415926535%Z 10000000000%Z ∧
  littleEndianBytes 0x400921FB54442D18 =
    [0x18; 0x2D; 0x44; 0x54; 0xFB; 0x21; 0x09; 0x40]%Z ∧
  littleEndianBytes 0x400921FB54411744 =
    [0x44; 0x17; 0x41; 0x54; 0xFB; 0x21; 0x09; 0x40]%Z.
Proof.
  cbv zeta. repeat split; try (vm_compute; reflexivity); try (vm_compute; discriminate).
  intros [_ Hnear]. vm_compute in Hnear. discriminate Hnear.
Qed.

(** C9, as stated, fails: the eight entries shown after [select("double")]
    spell 0x18, 0x2D, 0x44, 0x54, 0xFB, 0x21, 0x09, 0x40, and these are not
    the little-endian IEEE-754 bytes of 3.1415926535. *)
Lemma double_view_not_bytes_of_snippet_value :
  ¬ (∃ entry,
       current (select "double" pageInitialState) = Some entry ∧
       length (Interpretation.view entry) = 8 ∧
       displayedBytes (Interpretation.view entry) =
         Some [0x18; 0x2D; 0x44; 0x54; 0xFB; 0x21; 0x09; 0x40]%Z ∧
       displayedBytes (Interpretation.view entry) =
         ieee754LittleEndian 31415926535 10000000000).
Proof.
  intros (entry & Hcurrent & _ & _ & Hbytes).
  injection Hcurrent as <-. vm_compute in Hbytes. discriminate Hbytes.
Qed.

(** C9, amended. After [select("double")] the current interpretation's byte
    view has exactly eight entries, which spell 0x18, 0x2D, 0x44, 0x54, 0xFB,
    0x21, 0x09, 0x40: the little-endian IEEE-754 bytes of 3.141592653589793
    (pi to double precision), while those of 3.1415926535 are 0x44, 0x17,
    0x41, 0x54, 0xFB, 0x21, 0x09, 0x40. *)
Theorem select_double_view (s : PageState) :
  ∃ entry,
    current (select "double" s) = Some entry ∧
    Interpretation.id entry = "double" ∧
    Interpretation.view entry =
      ["0x18"; "0x2D"; "0x44"; "0x54"; "0xFB"; "0x21"; "0x09"; "0x40"] ∧
    length (Interpretation.view entry) = 8 ∧
    displayedBytes (Interpretation.view entry) =
      Some [0x18; 0x2D; 0x44; 0x54; 0xFB; 0x21; 0x09; 0x40]%Z ∧
    displayedBytes (Interpretation.view entry) =
      ieee754LittleEndian 3141592653589793 1000000000000000 ∧
    ieee754LittleEndian 31415926535 10000000000 =
      Some [0x44; 0x17; 0x41; 0x54; 0xFB; 0x21; 0x09; 0x40]%Z.
Proof. eexists. repeat split; vm_compute; reflexivity. Qed.

(** ** The byte grid *)

Lemma pointerBlocks_indices :
  PointerBlock.index <$> pointerBlocks = seq 0 8.
Proof. reflexivity. Qed.

Example pointerBlocks_addresses :
  PointerBlock.address <$> pointerBlocks =
    ["0x1000"; "0x1001"; "0x1002"; "0x1003"; "0x1004"; "0x1005"; "0x1006"; "0x1007"].
Proof. reflexivity. Qed.

Example toString16_digits :
  toString16 0 = "0" ∧ toString16 255 = "ff" ∧
  toUpperCase (toString16 0x10AF) = "10AF".
Proof. repeat split. Qed.

Lemma byteGrid_lookup (interpretation : Interpretation.t) (i : nat) :
  i < 8 →
  byteGrid interpretation !! i =
    Some (default "—" (Interpretation.view interpretation !! i)).
Proof.
  intros Hi. unfold byteGrid.
  do 8 (destruct i as [| i]; [reflexivity |]). lia.
Qed.

(** C3, as stated, fails on both counts: the struct entry's byte view has
    four strings, not eight, and a cell past the end of a view does not show
    the question mark. *)
Lemma byte_view_not_always_eight :
  ¬ (∀ entry, entry ∈ reinterpretations →
              length (Interpretation.view entry) = 8) ∧
  ¬ (∀ entry block,
       entry ∈ reinterpretations → block ∈ pointerBlocks →
       length (Interpretation.view entry) ≤ PointerBlock.index block →
       byteCell entry block = "?").
Proof.
  assert (Hstruct : ∃ entry, reinterpretations !! 3 = Some entry)
    by (eexists; reflexivity).
  destruct Hstruct as [entry Hentry].
  assert (Hin : entry ∈ reinterpretations)
    by (apply list_elem_of_lookup; eauto).
  injection Hentry as <-.
  split.
  - intros Hclaim. specialize (Hclaim _ Hin). discriminate Hclaim.
  - intros Hclaim.
    assert (Hblock : ∃ block, pointerBlocks !! 4 = Some block)
      by (eexists; reflexivity).
    destruct Hblock as [block Hblock].
    assert (Hbin : block ∈ pointerBlocks)
      by (apply list_elem_of_lookup; eauto).
    injection Hblock as <-.
    specialize (Hclaim _ _ Hin Hbin). cbn in Hclaim.
    specialize (Hclaim ltac:(lia)). discriminate Hclaim.
Qed.

(** C3, amended. Every interpretation's byte view is an ordered sequence of
    at most eight display strings (eight for char, int and double, four for
    struct); the grid always has eight cells, cell [i] shows entry [i] of the
    view, and a cell past the end of the view shows the dash placeholder. *)
Theorem byte_grid_cells (entry : Interpretation.t) :
  entry ∈ reinterpretations →
  length (Interpretation.view entry) ≤ 8 ∧
  length (byteGrid entry) = 8 ∧
  (∀ i text, Interpretation.view entry !! i = Some text →
             byteGrid entry !! i = Some text) ∧
  (∀ i, length (Interpretation.view entry) ≤ i → i < 8 →
        byteGrid entry !! i = Some "—") ∧
  (length ∘ Interpretation.view) <$> reinterpretations = [8; 8; 8; 4].
Proof.
  intros Hin.
  assert (Hlen : length (Interpretation.view entry) ≤ 8)
    by (table_cases Hin; cbn; lia).
  repeat split.
  - exact Hlen.
  - intros i text Hview.
    apply lookup_lt_Some in Hview as Hi.
    rewrite byteGrid_lookup by lia. by rewrite Hview.
  - intros i Hpast Hi.
    rewrite byteGrid_lookup by lia.
    by rewrite (lookup_ge_None_2 _ _ Hpast).
Qed.

Lemma byte_grid_cells_witness :
  ∃ entry,
    reinterpretations !! 3 = Some entry ∧
    byteGrid entry =
      ["id: 7"; "id bytes..."; "ratio: 0.75f"; "..."; "—"; "—"; "—"; "—"] ∧
    length (byteGrid entry) = 8.
Proof.
  eexists. split; [reflexivity |]. split; [reflexivity |].
  match goal with
  | |- length (byteGrid ?e) = 8 =>
      assert (Hin : e ∈ reinterpretations)
        by (apply list_elem_of_lookup; exists 3; reflexivity);
      exact (proj1 (proj2 (byte_grid_cells e Hin)))
  end.
Defined.

(** ** Quiz engine: single transitions *)

(** C4. While Reviewed ([submitted] is true), [chooseAnswer] returns the
    state it was given, for every question index and option index. *)
Theorem chooseAnswer_reviewed_noop (index optionIndex : nat) (s : PageState) :
  submitted s = true →
  chooseAnswer index optionIndex s = s ∧
  quizAnswers (chooseAnswer index optionIndex s) = quizAnswers s ∧
  submitted (chooseAnswer index optionIndex s) = true.
Proof.
  intros Hsub. unfold chooseAnswer. rewrite Hsub. auto.
Qed.

Lemma chooseAnswer_reviewed_noop_witness :
  chooseAnswer 0 1 (submit pageInitialState) = submit pageInitialState.
Proof.
  exact (proj1 (chooseAnswer_reviewed_noop 0 1 (submit pageInitialState) eq_refl)).
Defined.

(** C5. From every state, [reset()] yields the Answering state with one
    entry per question, every entry the sentinel -1. *)
Theorem reset_clears (questions : list QuizQuestion.t) (s : PageState) :
  submitted (reset questions s) = false ∧
  length (quizAnswers (reset questions s)) = length questions ∧
  Forall (λ e, e = Some (Number (-1))) (quizAnswers (reset questions s)) ∧
  quizAnswers (reset questions s) = quizAnswers (initialState questions).
Proof.
  unfold reset, blankAnswers; cbn. repeat split.
  - apply length_replicate.
  - apply Forall_replicate. reflexivity.
Qed.

(** C6. [submit()] is idempotent: a second call returns the state of the
    first, which is Reviewed and holds the answers recorded before. *)
Theorem submit_idempotent (s : PageState) :
  submit (submit s) = submit s ∧
  submitted (submit s) = true ∧
  quizAnswers (submit s) = quizAnswers s.
Proof. repeat split. Qed.

(** C10. The two state slices are independent: [select] leaves the recorded
    answers and the submitted flag as they were; [chooseAnswer], [submit] and
    [reset] leave the selected interpretation id as it was. *)
Theorem slices_independent (questions : list QuizQuestion.t) (s : PageState)
    (id : string) (index optionIndex : nat) :
  (quizAnswers (select id s) = quizAnswers s ∧
   submitted (select id s) = submitted s) ∧
  selectedId (chooseAnswer index optionIndex s) = selectedId s ∧
  selectedId (submit s) = selectedId s ∧
  selectedId (reset questions s) = selectedId s.
Proof.
  repeat split. unfold chooseAnswer. by destruct (submitted s).
Qed.

(** ** Quiz engine: the answer sequence under in-range writes *)

Lemma spread_dense (a : list slot) :
  Forall is_Some a → spread a = a.
Proof.
  unfold spread. induction 1 as [| e a [v ->] _ IH]; [reflexivity |].
  cbn. by rewrite IH.
Qed.

Lemma assignIndex_in_range (a : list slot) (i : nat) (v : jsval) :
  i < length a → assignIndex a i v = <[i := Some v]> a.
Proof. intros Hi. unfold assignIndex. by rewrite decide_True. Qed.

Section Invariant.
Variable questions : list QuizQuestion.t.

Lemma answerOk_is_Some (q : QuizQuestion.t) (e : slot) :
  answerOk q e → is_Some e.
Proof. intros [-> | (o & -> & _)]; by eexists. Qed.

Lemma answersInvariant_dense (s : PageState) :
  answersInvariant questions s → Forall is_Some (quizAnswers s).
Proof.
  unfold answersInvariant. generalize (quizAnswers s).
  induction 1 as [| q e qs a Hok _ IH]; constructor; eauto using answerOk_is_Some.
Qed.

Lemma blankAnswers_ok :
  Forall2 answerOk questions (blankAnswers questions).
Proof.
  unfold blankAnswers. induction questions as [| q qs IH]; cbn.
  - constructor.
  - constructor; [by left | exact IH].
Qed.

Lemma chooseAnswer_keeps_invariant (index optionIndex : nat) (q : QuizQuestion.t)
    (s : PageState) :
  questions !! index = Some q →
  optionIndex < length (QuizQuestion.options q) →
  answersInvariant questions s →
  answersInvariant questions (chooseAnswer index optionIndex s).
Proof.
  intros Hq Ho Hinv. unfold chooseAnswer.
  destruct (submitted s); [exact Hinv |].
  unfold answersInvariant in *; cbn [quizAnswers].
  rewrite spread_dense by (by apply answersInvariant_dense).
  rewrite assignIndex_in_range.
  - rewrite <- (list_insert_id questions index q Hq).
    apply Forall2_insert; [exact Hinv |]. right. eauto.
  - rewrite <- (Forall2_length _ _ _ Hinv). by eapply lookup_lt_Some.
Qed.

Lemma step_keeps_invariant (s s' : PageState) :
  step questions s s' →
  answersInvariant questions s → answersInvariant questions s'.
Proof.
  intros [op Hop] Hinv. destruct Hop as [index q o option Hq Hopt | | |]; cbn.
  - eapply chooseAnswer_keeps_invariant; eauto using lookup_lt_Some.
  - exact Hinv.
  - apply blankAnswers_ok.
  - exact Hinv.
Qed.

End Invariant.

(** C7. Every state reached from the initial state by a sequence of
    operations of the page (option, Submit, Reset and interpretation
    buttons) has one recorded answer per question, each either the sentinel -1
    or an index below the option count of its question. *)
Theorem reachable_answers_invariant (questions : list QuizQuestion.t)
    (s : PageState) :
  reachable questions s →
  length (quizAnswers s) = length questions ∧
  ∀ index q e,
    questions !! index = Some q → quizAnswers s !! index = Some e →
    e = Some (Number (-1)) ∨
    ∃ optionIndex : nat,
      e = Some (Number (Z.of_nat optionIndex)) ∧
      optionIndex < length (QuizQuestion.options q).
Proof.
  intros Hreach.
  assert (Hinv : answersInvariant questions s).
  { revert s Hreach. unfold reachable.
    apply (rtc_ind_r (answersInvariant questions)).
    - apply blankAnswers_ok.
    - intros s1 s2 _ Hstep IH. eapply step_keeps_invariant; eauto. }
  split.
  - symmetry. exact (Forall2_length _ _ _ Hinv).
  - intros index q e Hq He.
    exact (Forall2_lookup_lr _ _ _ _ _ _ Hinv Hq He).
Qed.

(** ** Quiz engine: what the score counts *)

Section Score.
Variable questions : list QuizQuestion.t.

Lemma blankAnswers_latest :
  blankAnswers questions = answersOf (latestAnswer []) (length questions).
Proof.
  unfold blankAnswers, answersOf. apply list_eq. intros i.
  rewrite list_lookup_fmap.
  destruct (decide (i < length questions)) as [Hi | Hi].
  - rewrite lookup_replicate_2, lookup_seq_lt by done. reflexivity.
  - rewrite lookup_seq_ge by lia.
    apply lookup_replicate_None. lia.
Qed.

Lemma latestAnswer_snoc (calls : list (nat * nat)) (c : nat * nat) (index : nat) :
  latestAnswer (calls ++ [c]) index =
    if decide (c.1 = index) then Z.of_nat c.2 else latestAnswer calls index.
Proof. unfold latestAnswer. by rewrite foldl_snoc. Qed.

Lemma record_answer (calls : list (nat * nat)) (index optionIndex n : nat) :
  index < n →
  <[index := Some (Number (Z.of_nat optionIndex))]> (answersOf (latestAnswer calls) n) =
    answersOf (latestAnswer (calls ++ [(index, optionIndex)])) n.
Proof.
  intros Hindex. unfold answersOf. apply list_eq. intros i.
  destruct (decide (index = i)) as [<- | Hne].
  - rewrite list_lookup_insert_eq by (by rewrite length_fmap, length_seq).
    rewrite list_lookup_fmap, lookup_seq_lt by done. cbn.
    rewrite latestAnswer_snoc. cbn. by rewrite decide_True.
  - rewrite list_lookup_insert_ne by done.
    rewrite !list_lookup_fmap.
    destruct (seq 0 n !! i) as [j |] eqn:Hj; [| reflexivity].
    apply lookup_seq in Hj as [-> _]. cbn.
    rewrite latestAnswer_snoc. cbn. by rewrite decide_False.
Qed.

Lemma runCalls_snoc (calls : list (nat * nat)) (c : nat * nat) (s : PageState) :
  runCalls (calls ++ [c]) s = chooseAnswer c.1 c.2 (runCalls calls s).
Proof. unfold runCalls. by rewrite foldl_snoc. Qed.

Lemma answersOf_dense (g : nat → Z) (n : nat) : Forall is_Some (answersOf g n).
Proof. apply Forall_fmap, Forall_forall. intros; by eexists. Qed.

Lemma length_answersOf (g : nat → Z) (n : nat) : length (answersOf g n) = n.
Proof. unfold answersOf. by rewrite length_fmap, length_seq. Qed.

Lemma answers_after_calls (calls : list (nat * nat)) (s : PageState) :
  submitted s = false →
  quizAnswers s = blankAnswers questions →
  Forall (λ c, c.1 < length questions) calls →
  submitted (runCalls calls s) = false ∧
  quizAnswers (runCalls calls s) =
    answersOf (latestAnswer calls) (length questions).
Proof.
  intros Hsub Hblank.
  induction calls as [| [index optionIndex] calls IH] using rev_ind; intros Hcalls.
  - split; [exact Hsub |]. cbn. by rewrite Hblank, blankAnswers_latest.
  - apply Forall_app in Hcalls as [Hcalls Hc].
    rewrite Forall_singleton in Hc. cbn in Hc.
    destruct (IH Hcalls) as [IHsub IHans].
    rewrite runCalls_snoc. cbn [fst snd].
    unfold chooseAnswer. rewrite IHsub. cbn [submitted quizAnswers].
    split; [reflexivity |].
    rewrite IHans, spread_dense by apply answersOf_dense.
    rewrite assignIndex_in_range by (by rewrite length_answersOf).
    by apply record_answer.
Qed.

Lemma reduceFrom_dense (g : nat → Z) (k n acc : nat) :
  reduceFrom (λ total answer index,
                if decide (answer = correctAnswer questions index)
                then total + 1 else total)
             k ((λ i : nat, Some (Number (g i))) <$> seq k n) acc =
    acc + length (List.filter
                    (λ i, bool_decide (Number (g i) = correctAnswer questions i))
                    (seq k n)).
Proof.
  revert k acc. induction n as [| n IH]; intros k acc; cbn.
  - lia.
  - rewrite IH. destruct (decide (Number (g k) = correctAnswer questions k)).
    + rewrite bool_decide_eq_true_2 by done. cbn. lia.
    + rewrite bool_decide_eq_false_2 by done. lia.
Qed.

Lemma correct_iff (calls : list (nat * nat)) (index : nat) :
  index < length questions →
  bool_decide (Number (latestAnswer calls index) = correctAnswer questions index) =
    countsAsCorrect questions calls index.
Proof.
  intros Hindex. unfold countsAsCorrect, correctAnswer.
  destruct (lookup_lt_is_Some_2 _ _ Hindex) as [q ->].
  apply bool_decide_ext. split; congruence.
Qed.

Lemma score_after_calls (calls : list (nat * nat)) (s : PageState) :
  submitted s = false →
  quizAnswers s = blankAnswers questions →
  Forall (λ c, c.1 < length questions) calls →
  score questions (runCalls calls s) = correctCount questions calls.
Proof.
  intros Hsub Hblank Hcalls.
  destruct (answers_after_calls calls s Hsub Hblank Hcalls) as [_ Hans].
  unfold score, reduce, correctCount, answersOf.
  rewrite Hans. unfold answersOf. rewrite reduceFrom_dense. cbn [Nat.add].
  f_equal. apply List.filter_ext_in. intros i Hi.
  apply correct_iff. apply List.in_seq in Hi. lia.
Qed.

End Score.

(** C1. For every sequence of [chooseAnswer] calls about questions of the
    quiz, made while Answering from the all-unanswered state, [score()] is the
    number of questions whose latest recorded answer equals the question's
    correct index, before and after [submit()]; an unanswered question (latest
    answer the sentinel -1) does not count as correct; and with correct indices
    1, 0, 2 and recorded answers 1, 1, 2 the score is 2. *)
Theorem score_counts_latest_correct :
  (∀ (questions : list QuizQuestion.t) (calls : list (nat * nat)) (s : PageState),
     submitted s = false →
     quizAnswers s = blankAnswers questions →
     Forall (λ c, c.1 < length questions) calls →
     submitted (runCalls calls s) = false ∧
     score questions (runCalls calls s) = correctCount questions calls ∧
     score questions (submit (runCalls calls s)) = correctCount questions calls) ∧
  (∀ (questions : list QuizQuestion.t) (calls : list (nat * nat))
     (index : nat) (q : QuizQuestion.t),
     questions !! index = Some q →
     (0 ≤ QuizQuestion.answer q)%Z →
     latestAnswer calls index = (-1)%Z →
     countsAsCorrect questions calls index = false ∧
     unanswered ≠ correctAnswer questions index) ∧
  (∀ (questions : list QuizQuestion.t) (s : PageState),
     QuizQuestion.answer <$> questions = [1; 0; 2]%Z →
     quizAnswers s = [Some (Number 1); Some (Number 1); Some (Number 2)] →
     score questions s = 2).
Proof.
  split; [| split].
  - intros questions calls s Hsub Hblank Hcalls.
    pose proof (score_after_calls questions calls s Hsub Hblank Hcalls) as Hscore.
    destruct (answers_after_calls questions calls s Hsub Hblank Hcalls) as [Hs _].
    repeat split; assumption.
  - intros questions calls index q Hq Hvalid Hlatest.
    unfold countsAsCorrect, correctAnswer, unanswered. rewrite Hq, Hlatest.
    split.
    + apply bool_decide_eq_false_2. lia.
    + intros [= Heq]. lia.
  - intros questions s Hanswers Hrecorded.
    destruct questions as [| q1 [| q2 [| q3 [| q4 questions]]]]; try discriminate.
    injection Hanswers as H1 H2 H3.
    unfold score, reduce, correctAnswer. rewrite Hrecorded. cbn.
    rewrite H1, H2, H3. reflexivity.
Qed.

Lemma score_counts_latest_correct_witness :
  score quizQuestions (runCalls [(0, 1); (1, 1); (2, 1)] pageInitialState) = 2.
Proof.
  assert (Hcalls : Forall (λ c : nat * nat, c.1 < length quizQuestions)
                          [(0, 1); (1, 1); (2, 1)])
    by (repeat constructor; cbn; lia).
  exact (proj1 (proj2 (proj1 score_counts_latest_correct quizQuestions
                         [(0, 1); (1, 1); (2, 1)] pageInitialState
                         eq_refl eq_refl Hcalls))).
Defined.

(** The handlers exist only for the questions of the quiz. Were the handler
    of a question index past the bank run, the write would leave a hole, the
    next copy would turn it into [undefined], and [score] would count it,
    since [quizQuestions[index]?.answer] is [undefined] there as well. *)
Example score_with_call_out_of_range :
  quizAnswers (runCalls [(4, 0); (0, 1)] pageInitialState) =
    [Some (Number 1); Some (Number (-1)); Some (Number (-1));
     Some Undefined; Some (Number 0)] ∧
  score quizQuestions (runCalls [(4, 0); (0, 1)] pageInitialState) = 2 ∧
  correctCount quizQuestions [(4, 0); (0, 1)] = 1.
Proof. repeat split. Qed.

(** The range of the stored index comes from the rendering, not from the
    handler: its body writes whatever [optionIndex] it closes over, and the
    page creates it only for the options of the question. *)
Example chooseAnswer_writes_its_option :
  quizAnswers (chooseAnswer 0 7 pageInitialState) !! 0 = Some (Some (Number 7)) ∧
  ¬ rendered quizQuestions (ChooseAnswer 0 7).
Proof.
  split; [reflexivity |].
  inversion 1 as [index q o option Hq Hoption | | |]; subst.
  injection Hq as <-. discriminate Hoption.
Qed.

Lemma reachable_answers_invariant_witness :
  length (quizAnswers (submit (chooseAnswer 0 1 pageInitialState))) = 3.
Proof.
  assert (Hreach : reachable quizQuestions
                     (submit (chooseAnswer 0 1 pageInitialState))).
  { unfold reachable.
    eapply rtc_l.
    { apply (step_click quizQuestions _ (ChooseAnswer 0 1)).
      eapply rendered_option; reflexivity. }
    eapply rtc_l.
    { apply (step_click quizQuestions _ Submit). apply rendered_submit. }
    apply rtc_refl. }
  exact (proj1 (reachable_answers_invariant quizQuestions _ Hreach)).
Defined.

(** ** Further properties of the handlers *)

(** *** Reading and writing the answer array *)

Lemma arrayGet_spread (a : list slot) (j : nat) :
  arrayGet (spread a) j = arrayGet a j.
Proof.
  unfold arrayGet, spread. rewrite list_lookup_fmap.
  by destruct (a !! j) as [[v |] |].
Qed.

Lemma arrayGet_assignIndex (a : list slot) (i j : nat) (v : jsval) :
  arrayGet (assignIndex a i v) j = if decide (i = j) then v else arrayGet a j.
Proof.
  unfold arrayGet, assignIndex, slot in *.
  destruct (decide (i < length a)) as [Hin | Hout].
  - destruct (decide (i = j)) as [<- | Hne].
    + by rewrite list_lookup_insert_eq.
    + by rewrite list_lookup_insert_ne.
  - destruct (decide (i = j)) as [<- | Hne].
    + replace (a ++ replicate (i - length a) None ++ [Some v])%list
        with ((a ++ replicate (i - length a) None) ++ Some v :: [])%list
        by (by rewrite <- app_assoc).
      rewrite list_lookup_middle; [done |].
      rewrite length_app, length_replicate. lia.
    + destruct (decide (j < length a)) as [Hj | Hj].
      { by rewrite lookup_app_l. }
      rewrite lookup_app_r by lia.
      rewrite (lookup_ge_None_2 a j) by lia.
      destruct (decide (j < i)) as [Hlt | Hge].
      * rewrite lookup_app_l by (rewrite length_replicate; lia).
        rewrite lookup_replicate_2 by lia. reflexivity.
      * rewrite lookup_ge_None_2; [reflexivity |].
        rewrite length_app, length_replicate. cbn. lia.
Qed.

Lemma length_assignIndex (a : list slot) (i : nat) (v : jsval) :
  length (assignIndex a i v) = length a `max` S i.
Proof.
  unfold assignIndex. case_decide.
  - rewrite length_insert. lia.
  - rewrite !length_app, length_replicate. cbn. lia.
Qed.

Lemma spread_is_dense (a : list slot) : Forall is_Some (spread a).
Proof. apply Forall_fmap, Forall_forall. intros; by eexists. Qed.

Lemma length_spread (a : list slot) : length (spread a) = length a.
Proof. unfold spread. apply length_fmap. Qed.

(** X1. An answer given while Answering is recorded at its index, whatever
    the index: the array grows to hold it when the index is past its end, and
    every other index reads as it read before. *)
Theorem chooseAnswer_records (index optionIndex : nat) (s : PageState) :
  submitted s = false →
  arrayGet (quizAnswers (chooseAnswer index optionIndex s)) index =
    Number (Z.of_nat optionIndex) ∧
  (∀ other, other ≠ index →
     arrayGet (quizAnswers (chooseAnswer index optionIndex s)) other =
       arrayGet (quizAnswers s) other) ∧
  length (quizAnswers (chooseAnswer index optionIndex s)) =
    length (quizAnswers s) `max` S index ∧
  submitted (chooseAnswer index optionIndex s) = false.
Proof.
  intros Hsub. unfold chooseAnswer. rewrite Hsub. cbn [quizAnswers submitted].
  repeat split.
  - rewrite arrayGet_assignIndex. by rewrite decide_True.
  - intros other Hne. rewrite arrayGet_assignIndex, arrayGet_spread.
    by rewrite decide_False.
  - by rewrite length_assignIndex, length_spread.
Qed.

Lemma chooseAnswer_records_witness :
  arrayGet (quizAnswers (chooseAnswer 5 2 pageInitialState)) 5 = Number 2 ∧
  length (quizAnswers (chooseAnswer 5 2 pageInitialState)) = 6.
Proof.
  pose proof (chooseAnswer_records 5 2 pageInitialState eq_refl) as H.
  split; [exact (proj1 H) | exact (proj1 (proj2 (proj2 H)))].
Defined.

(** X2. For a question index inside the array, a second answer replaces the
    first, and answers to two different questions can be given in either
    order. *)
Theorem chooseAnswer_overwrites_and_commutes (i j oi oi' oj : nat) (s : PageState) :
  i < length (quizAnswers s) →
  j < length (quizAnswers s) →
  chooseAnswer i oi' (chooseAnswer i oi s) = chooseAnswer i oi' s ∧
  (i ≠ j →
   chooseAnswer i oi (chooseAnswer j oj s) = chooseAnswer j oj (chooseAnswer i oi s)).
Proof.
  intros Hi Hj. unfold chooseAnswer.
  destruct (submitted s) eqn:Hsub; cbn [submitted quizAnswers selectedId];
    rewrite ?Hsub; [done |].
  cbn [submitted quizAnswers selectedId].
  assert (Hdense : ∀ k v, k < length (quizAnswers s) →
            spread (assignIndex (spread (quizAnswers s)) k v) =
              <[k := Some v]> (spread (quizAnswers s))).
  { intros k v Hk.
    rewrite assignIndex_in_range by (by rewrite length_spread).
    apply spread_dense, Forall_insert; [apply spread_is_dense | by eexists]. }
  split.
  - f_equal. rewrite Hdense by done.
    rewrite !assignIndex_in_range
      by (rewrite ?length_insert, length_spread; done).
    apply list_insert_insert_eq.
  - intros Hne. f_equal. rewrite !Hdense by done.
    rewrite !assignIndex_in_range
      by (rewrite ?length_insert, length_spread; done).
    by apply list_insert_insert_ne.
Qed.

Lemma chooseAnswer_overwrites_and_commutes_witness :
  chooseAnswer 0 1 (chooseAnswer 0 3 pageInitialState) =
    chooseAnswer 0 1 pageInitialState.
Proof.
  assert (H0 : 0 < length (quizAnswers pageInitialState)) by (cbn; lia).
  assert (H2 : 2 < length (quizAnswers pageInitialState)) by (cbn; lia).
  exact (proj1 (chooseAnswer_overwrites_and_commutes 0 2 3 1 0 pageInitialState H0 H2)).
Defined.

(** Past the end of the array the second answer does not simply replace the
    first: the copy made for it has turned the holes into [undefined]. *)
Example chooseAnswer_past_end_twice :
  quizAnswers (chooseAnswer 4 1 (chooseAnswer 4 3 pageInitialState)) =
    [Some (Number (-1)); Some (Number (-1)); Some (Number (-1));
     Some Undefined; Some (Number 1)] ∧
  quizAnswers (chooseAnswer 4 1 pageInitialState) =
    [Some (Number (-1)); Some (Number (-1)); Some (Number (-1));
     None; Some (Number 1)].
Proof. split; reflexivity. Qed.

(** *** Submission locks the answers *)

Lemma runOps_snoc (questions : list QuizQuestion.t) (ops : list Op) (op : Op)
    (s : PageState) :
  runOps questions (ops ++ [op]) s = runOp questions op (runOps questions ops s).
Proof. unfold runOps. by rewrite foldl_snoc. Qed.

(** X3. Once submitted, no sequence of operations without a Reset changes the
    recorded answers, the flag or the score: only Reset reopens the quiz. *)
Theorem submitted_locks_until_reset (questions : list QuizQuestion.t)
    (ops : list Op) (s : PageState) :
  submitted s = true →
  Reset ∉ ops →
  submitted (runOps questions ops s) = true ∧
  quizAnswers (runOps questions ops s) = quizAnswers s ∧
  score questions (runOps questions ops s) = score questions s.
Proof.
  intros Hsub.
  induction ops as [| op ops IH] using rev_ind; intros Hreset.
  - by cbn.
  - rewrite runOps_snoc.
    destruct IH as (IHsub & IHans & IHscore).
    { intros Hin. apply Hreset, elem_of_app. by left. }
    unfold score in *.
    destruct op as [index optionIndex | | | id]; cbn.
    + unfold chooseAnswer. by rewrite IHsub.
    + done.
    + exfalso. apply Hreset, elem_of_app. right. by apply list_elem_of_singleton.
    + done.
Qed.

Lemma submitted_locks_until_reset_witness :
  quizAnswers (runOps quizQuestions [ChooseAnswer 0 1; Select "int"; Submit; ChooseAnswer 2 3]
                 (submit pageInitialState)) =
    quizAnswers (submit pageInitialState).
Proof.
  refine (proj1 (proj2 (submitted_locks_until_reset quizQuestions
                          [ChooseAnswer 0 1; Select "int"; Submit; ChooseAnswer 2 3]
                          (submit pageInitialState) eq_refl _))).
  intros Hin. repeat (apply elem_of_cons in Hin as [Hin | Hin]; [discriminate |]).
  by apply elem_of_nil in Hin.
Defined.

(** ** Further properties of the selector and its buttons *)

(** X4. Whatever id is stored, [selectedInterpretation] is defined and is an
    entry of the table: the entry with that id when there is one, the first
    entry otherwise. *)
Theorem current_always_defined (s : PageState) :
  ∃ entry,
    current s = Some entry ∧
    entry ∈ reinterpretations ∧
    (Interpretation.id entry = selectedId s ∨
     (∀ other, other ∈ reinterpretations → Interpretation.id other ≠ selectedId s) ∧
     reinterpretations !! 0 = Some entry).
Proof.
  unfold current, selectedInterpretation.
  destruct (List.find _ reinterpretations) as [entry |] eqn:Hfind.
  - apply List.find_some in Hfind as [Hin Hid].
    exists entry. split; [done |]. split; [by apply list_elem_of_In |].
    left. by apply bool_decide_eq_true_1 in Hid.
  - destruct reinterpretations_first as (entry & Hfirst & _).
    exists entry. split; [done |].
    split; [apply list_elem_of_lookup; eauto |].
    right. split; [| done]. intros other Hother Hid.
    apply list_elem_of_In in Hother.
    pose proof (List.find_none _ _ Hfind other Hother) as Hno. cbn in Hno.
    rewrite bool_decide_eq_true_2 in Hno by done. discriminate.
Qed.

Lemma reachable_selectedId (questions : list QuizQuestion.t) (s : PageState) :
  reachable questions s →
  ∃ entry, entry ∈ reinterpretations ∧ selectedId s = Interpretation.id entry.
Proof.
  revert s. unfold reachable. apply rtc_ind_r.
  - destruct reinterpretations_first as (entry & Hfirst & Hid).
    exists entry. split; [apply list_elem_of_lookup; eauto |].
    unfold initialState. cbn [selectedId]. by rewrite Hfirst.
  - intros s1 s2 _ [op Hop] IH.
    destruct Hop as [index q o option _ _ | | | interpretation Hin]; cbn.
    + unfold chooseAnswer. by destruct (submitted s1).
    + exact IH.
    + exact IH.
    + eauto.
Qed.

(** X5. In every state the page can reach, exactly one interpretation button is
    drawn active, and it is the button of the entry whose snippet,
    explanation and bytes are shown. *)
Theorem one_active_button (questions : list QuizQuestion.t) (s : PageState) :
  reachable questions s →
  ∃ entry,
    List.filter (isActive s) reinterpretations = [entry] ∧
    current s = Some entry ∧
    selectedId s = Interpretation.id entry.
Proof.
  intros Hreach.
  destruct (reachable_selectedId questions s Hreach) as (entry & Hin & Hid).
  exists entry. unfold isActive, current. rewrite Hid.
  table_cases Hin; repeat split.
Qed.

Lemma one_active_button_witness :
  ∃ entry,
    List.filter (isActive (select "double" pageInitialState)) reinterpretations = [entry] ∧
    Interpretation.label entry = "double*".
Proof.
  assert (Hreach : reachable quizQuestions (select "double" pageInitialState)).
  { unfold reachable. eapply rtc_l; [| apply rtc_refl].
    assert (Hin : ∃ entry, reinterpretations !! 2 = Some entry) by (eexists; reflexivity).
    destruct Hin as [entry Hentry].
    assert (Hmem : entry ∈ reinterpretations) by (apply list_elem_of_lookup; eauto).
    injection Hentry as <-.
    exact (step_click quizQuestions pageInitialState _
             (rendered_interpretation quizQuestions _ Hmem)). }
  destruct (one_active_button quizQuestions _ Hreach) as (entry & Hactive & Hcur & _).
  exists entry. split; [exact Hactive |].
  injection Hcur as <-. reflexivity.
Defined.

(** X6. With a stored id that matches no entry, no button is drawn active, yet
    the panel shows the first entry. *)
Theorem unknown_id_no_active_button (s : PageState) :
  (∀ entry, entry ∈ reinterpretations → Interpretation.id entry ≠ selectedId s) →
  List.filter (isActive s) reinterpretations = [] ∧
  current s = reinterpretations !! 0.
Proof.
  intros Hmiss. split.
  - induction reinterpretations as [| e table IH]; [reflexivity |].
    cbn [List.filter]. unfold isActive at 1.
    rewrite bool_decide_eq_false_2.
    + apply IH. intros entry Hin. apply Hmiss. by right.
    + intros Heq. apply (Hmiss e); [by left | done].
  - unfold current, selectedInterpretation. by rewrite find_by_id_miss.
Qed.

Lemma unknown_id_no_active_button_witness :
  List.filter (isActive (select "bogus" pageInitialState)) reinterpretations = [].
Proof.
  refine (proj1 (unknown_id_no_active_button (select "bogus" pageInitialState) _)).
  intros entry Hin. table_cases Hin; discriminate.
Defined.

(** ** The byte grid for any view *)

(** X7. For a view of any length the grid is its first eight entries, padded with
    the dash: entries past the eighth are never shown. *)
Theorem byteGrid_take_pad (interpretation : Interpretation.t) :
  byteGrid interpretation =
    take 8 (Interpretation.view interpretation ++ replicate 8 "—").
Proof.
  apply list_eq. intros i.
  destruct (decide (i < 8)) as [Hi | Hi].
  - rewrite byteGrid_lookup, lookup_take_lt by done.
    destruct (decide (i < length (Interpretation.view interpretation))) as [Hv | Hv].
    + rewrite lookup_app_l by done.
      by destruct (lookup_lt_is_Some_2 _ _ Hv) as [text ->].
    + rewrite lookup_app_r, lookup_replicate_2 by lia.
      by rewrite lookup_ge_None_2 by lia.
  - rewrite lookup_take_ge by lia.
    apply lookup_ge_None_2. unfold byteGrid. rewrite length_fmap. cbn. lia.
Qed.

(** ** The controls and the step relation *)

(** X8. The states one interaction away are exactly the [afterClick] states of
    the controls drawn for the present state. *)
Theorem step_iff_clickTarget (questions : list QuizQuestion.t) (s s' : PageState) :
  step questions s s' ↔ s' ∈ clickTargets questions s.
Proof.
  unfold clickTargets. rewrite !elem_of_app, list_elem_of_join. split.
  - intros [op Hop].
    destruct Hop as [index q o option Hq Hoption | | | interpretation Hin];
      cbn [runOp].
    + right; left.
      exists (OptionButton.afterClick <$> optionButtons s index q). split.
      * apply list_elem_of_lookup. exists o. unfold optionButtons.
        by rewrite list_lookup_fmap, list_lookup_imap, Hoption.
      * apply list_elem_of_fmap. exists (questionCard s index q).
        split; [reflexivity |].
        apply list_elem_of_lookup. exists index. unfold questionCards.
        by rewrite list_lookup_imap, Hq.
    + right; right. apply elem_of_cons; right. by apply list_elem_of_singleton.
    + right; right. apply elem_of_cons; by left.
    + left. apply list_elem_of_fmap.
      exists (interpretationButton s interpretation). split; [reflexivity |].
      apply list_elem_of_fmap. eauto.
  - intros [Hin | [(l & Hin & Hl) | Hin]].
    + apply list_elem_of_fmap in Hin as (button & -> & Hbutton).
      apply list_elem_of_fmap in Hbutton as (interpretation & -> & Hmem).
      exact (step_click questions s _ (rendered_interpretation questions _ Hmem)).
    + apply list_elem_of_fmap in Hl as (card & -> & Hcard).
      apply list_elem_of_lookup in Hcard as [index Hcard].
      unfold questionCards in Hcard. rewrite list_lookup_imap in Hcard.
      destruct (questions !! index) as [q |] eqn:Hq; [| discriminate].
      injection Hcard as <-. cbn in Hin.
      apply list_elem_of_lookup in Hin as [o Hin].
      unfold optionButtons in Hin.
      rewrite list_lookup_fmap, list_lookup_imap in Hin.
      destruct (QuizQuestion.options q !! o) as [option |] eqn:Hoption; [| discriminate].
      injection Hin as <-.
      exact (step_click questions s _ (rendered_option index q o option Hq Hoption)).
    + apply elem_of_cons in Hin as [-> | Hin].
      * exact (step_click questions s Reset (rendered_reset questions)).
      * apply list_elem_of_singleton in Hin as ->.
        exact (step_click questions s Submit (rendered_submit questions)).
Qed.

(** ** The score, the cards and the verdict *)

Lemma filter_length_fmap {A B : Type} (p : B → bool) (f : A → B) (l : list A) :
  length (List.filter p (f <$> l)) = length (List.filter (λ x, p (f x)) l).
Proof.
  induction l as [| x l IH]; [reflexivity |].
  cbn. destruct (p (f x)); cbn; by rewrite IH.
Qed.

Lemma filter_length_imap {A B : Type} (p : B → bool) (F : nat → A → B)
    (P : nat → bool) (l : list A) :
  (∀ i x, l !! i = Some x → p (F i x) = P i) →
  length (List.filter p (imap F l)) = length (List.filter P (seq 0 (length l))).
Proof.
  revert F P. induction l as [| x l IH]; intros F P HP; [reflexivity |].
  rewrite imap_cons. cbn [length seq List.filter].
  rewrite (HP 0 x eq_refl).
  assert (Hrest : length (List.filter p (imap (F ∘ S) l)) =
                  length (List.filter P (seq 1 (length l)))).
  { rewrite <- fmap_S_seq, filter_length_fmap.
    apply IH. intros i y Hy. exact (HP (S i) y Hy). }
  destruct (P 0); cbn [length]; by rewrite Hrest.
Qed.

Lemma filter_length_full {A : Type} (p : A → bool) (l : list A) :
  length (List.filter p l) = length l ↔ ∀ x, x ∈ l → p x = true.
Proof.
  induction l as [| x l IH]; cbn.
  - split; [intros _ y Hy; by apply elem_of_nil in Hy | done].
  - pose proof (List.filter_length_le p l) as Hle.
    destruct (p x) eqn:Hpx; cbn.
    + split.
      * intros Hlen y Hy. apply elem_of_cons in Hy as [-> | Hy]; [done |].
        apply IH; [lia | done].
      * intros Hall. f_equal. apply IH. intros y Hy. apply Hall. by right.
    + split; [lia |]. intros Hall.
      specialize (Hall x ltac:(by left)). congruence.
Qed.

Lemma reduceFrom_le (questions : list QuizQuestion.t) (a : list slot) (k acc : nat) :
  reduceFrom (λ total answer index,
                if decide (answer = correctAnswer questions index)
                then total + 1 else total) k a acc ≤ acc + length a.
Proof.
  revert k acc. induction a as [| [v |] a IH]; intros k acc; cbn.
  - lia.
  - case_decide; etransitivity; [apply IH | lia | apply IH | lia].
  - etransitivity; [apply IH | lia].
Qed.

Lemma arrayGet_answersOf (g : nat → Z) (n i : nat) :
  i < n → arrayGet (answersOf g n) i = Number (g i).
Proof.
  intros Hi. unfold arrayGet, answersOf.
  by rewrite list_lookup_fmap, lookup_seq_lt.
Qed.

Lemma answersInvariant_numbers (questions : list QuizQuestion.t) (s : PageState) :
  answersInvariant questions s →
  ∃ g, quizAnswers s = answersOf g (length questions).
Proof.
  intros Hinv.
  exists (λ i, match arrayGet (quizAnswers s) i with Number n => n | Undefined => 0%Z end).
  unfold answersInvariant in Hinv.
  pose proof (Forall2_length _ _ _ Hinv) as Hlen.
  apply list_eq. intros i. unfold answersOf. rewrite list_lookup_fmap.
  destruct (decide (i < length questions)) as [Hi | Hi].
  - rewrite lookup_seq_lt by done. cbn.
    destruct (lookup_lt_is_Some_2 questions i Hi) as [q Hq].
    destruct (Forall2_lookup_l _ _ _ _ _ Hinv Hq) as (e & He & Hok).
    unfold arrayGet, slot in *.
    destruct Hok as [-> | (o & -> & _)]; by rewrite !He.
  - rewrite lookup_seq_ge by lia.
    apply lookup_ge_None_2. lia.
Qed.

Lemma reachable_invariant (questions : list QuizQuestion.t) (s : PageState) :
  reachable questions s → answersInvariant questions s.
Proof.
  revert s. unfold reachable. apply (rtc_ind_r (answersInvariant questions)).
  - apply blankAnswers_ok.
  - intros s1 s2 _ Hstep IH. eapply step_keeps_invariant; eauto.
Qed.

Lemma score_answersOf (questions : list QuizQuestion.t) (s : PageState)
    (g : nat → Z) (n : nat) :
  quizAnswers s = answersOf g n →
  score questions s =
    length (List.filter
              (λ i, bool_decide (Number (g i) = correctAnswer questions i))
              (seq 0 n)).
Proof.
  intros Hans. unfold score, reduce. rewrite Hans. unfold answersOf.
  by rewrite reduceFrom_dense.
Qed.

(** X9. The score never exceeds the number of entries of the answer array, so in
    every state the page can reach it is at most the number of questions. *)
Theorem score_bounded (questions : list QuizQuestion.t) (s : PageState) :
  score questions s ≤ length (quizAnswers s) ∧
  (reachable questions s → score questions s ≤ length questions).
Proof.
  assert (Hle : score questions s ≤ length (quizAnswers s))
    by apply (reduceFrom_le questions (quizAnswers s) 0 0).
  split; [exact Hle |]. intros Hreach.
  apply reachable_invariant in Hreach.
  by rewrite (Forall2_length _ _ _ Hreach).
Qed.

Lemma score_bounded_witness :
  score quizQuestions (submit (chooseAnswer 0 1 pageInitialState)) ≤ 3.
Proof.
  refine (proj2 (score_bounded quizQuestions _) _).
  unfold reachable.
  eapply rtc_l.
  { apply (step_click quizQuestions _ (ChooseAnswer 0 1)).
    eapply rendered_option; reflexivity. }
  eapply rtc_l.
  { apply (step_click quizQuestions _ Submit). apply rendered_submit. }
  apply rtc_refl.
Defined.

(** After a run of the handler of an index past the bank, the score can
    exceed the number of questions. *)
Example score_above_total :
  score quizQuestions
    (runCalls [(5, 0); (0, 1); (1, 2); (2, 1)] pageInitialState) = 5 ∧
  length quizQuestions = 3.
Proof. split; reflexivity. Qed.

(** X10. A blank quiz (after Reset, or at the start) scores one point for every
    question whose correct index is the sentinel -1, hence nothing for the
    page's own questions. *)
Theorem score_of_blank_quiz (questions : list QuizQuestion.t) (s : PageState) :
  score questions (reset questions s) =
    length (List.filter (λ q, bool_decide (QuizQuestion.answer q = (-1)%Z)) questions) ∧
  score questions (initialState questions) = score questions (reset questions s) ∧
  score quizQuestions (reset quizQuestions s) = 0.
Proof.
  assert (Hblank : ∀ s', quizAnswers s' = blankAnswers questions →
            score questions s' =
              length (List.filter (λ q, bool_decide (QuizQuestion.answer q = (-1)%Z))
                                  questions)).
  { intros s' Hs'.
    rewrite (score_answersOf questions s' (latestAnswer []) (length questions))
      by (by rewrite Hs', blankAnswers_latest).
    rewrite <- (list_fmap_id questions) at 2.
    rewrite <- (imap_const id questions).
    symmetry. apply filter_length_imap. intros i q Hq.
    unfold correctAnswer. rewrite Hq. cbn.
    apply bool_decide_ext. split; [by intros -> | by intros [= ->]]. }
  split; [by apply Hblank |].
  split; [by rewrite !Hblank |].
  reflexivity.
Qed.

Lemma isRightCard_questionCard (s : PageState) (index : nat) (q : QuizQuestion.t) :
  isRightCard (questionCard s index q) =
    submitted s &&
    bool_decide (arrayGet (quizAnswers s) index ≠ Number (-1)) &&
    bool_decide (arrayGet (quizAnswers s) index = Number (QuizQuestion.answer q)).
Proof.
  unfold isRightCard, questionCard, answerClassname. cbn [QuestionCard.className].
  destruct (submitted s); [| reflexivity].
  destruct (bool_decide (arrayGet (quizAnswers s) index ≠ Number (-1)));
    [| reflexivity].
  cbn [andb].
  destruct (decide (arrayGet (quizAnswers s) index = Number (QuizQuestion.answer q)))
    as [Heq | Hne].
  - by rewrite (bool_decide_eq_true_2 _ Heq).
  - by rewrite (bool_decide_eq_false_2 _ Hne).
Qed.

(** X11. Once submitted, in every state the page can reach and for questions whose
    correct index is not negative, the number of cards drawn in the colour of a
    right answer is the score shown in the results line. *)
Theorem right_cards_match_score (questions : list QuizQuestion.t) (s : PageState) :
  reachable questions s →
  Forall (λ q, (0 ≤ QuizQuestion.answer q)%Z) questions →
  submitted s = true →
  length (List.filter isRightCard (questionCards questions s)) = score questions s.
Proof.
  intros Hreach Hvalid Hsub.
  destruct (answersInvariant_numbers questions s (reachable_invariant _ _ Hreach))
    as [g Hg].
  rewrite (score_answersOf questions s g (length questions) Hg).
  unfold questionCards. apply filter_length_imap. intros i q Hq.
  rewrite isRightCard_questionCard, Hsub, Hg.
  rewrite arrayGet_answersOf by (by eapply lookup_lt_Some).
  unfold correctAnswer. rewrite Hq. cbn [andb].
  pose proof (proj1 (Forall_lookup _ _) Hvalid i q Hq) as Hq0. cbn in Hq0.
  destruct (decide (g i = QuizQuestion.answer q)) as [Heq | Hne].
  - rewrite !bool_decide_eq_true_2; [done | by rewrite Heq |].
    intros [= Hminus]. lia.
  - rewrite (bool_decide_eq_false_2 (Number (g i) = _)) by (intros [= ?]; done).
    apply andb_false_r.
Qed.

Lemma right_cards_match_score_witness :
  length (List.filter isRightCard
            (questionCards quizQuestions
               (submit (chooseAnswer 0 1 pageInitialState)))) = 1.
Proof.
  assert (Hreach : reachable quizQuestions (submit (chooseAnswer 0 1 pageInitialState))).
  { unfold reachable.
    eapply rtc_l.
    { apply (step_click quizQuestions _ (ChooseAnswer 0 1)).
      eapply rendered_option; reflexivity. }
    eapply rtc_l.
    { apply (step_click quizQuestions _ Submit). apply rendered_submit. }
    apply rtc_refl. }
  assert (Hvalid : Forall (λ q, (0 ≤ QuizQuestion.answer q)%Z) quizQuestions)
    by (repeat constructor; cbn; lia).
  exact (right_cards_match_score quizQuestions _ Hreach Hvalid eq_refl).
Defined.

(** X12. In every state the page can reach, the verdict is "Perfect!" exactly when
    every question's recorded answer is its correct index. *)
Theorem verdict_perfect_iff (questions : list QuizQuestion.t) (s : PageState) :
  reachable questions s →
  verdict questions s = "Perfect!" ↔
  ∀ index q, questions !! index = Some q →
             arrayGet (quizAnswers s) index = Number (QuizQuestion.answer q).
Proof.
  intros Hreach.
  destruct (answersInvariant_numbers questions s (reachable_invariant _ _ Hreach))
    as [g Hg].
  pose proof (score_answersOf questions s g (length questions) Hg) as Hscore.
  assert (Hall : score questions s = length questions ↔
            ∀ index q, questions !! index = Some q →
                       arrayGet (quizAnswers s) index = Number (QuizQuestion.answer q)).
  { rewrite Hscore.
    pose proof (filter_length_full
                  (λ i, bool_decide (Number (g i) = correctAnswer questions i))
                  (seq 0 (length questions))) as Hfull.
    rewrite length_seq in Hfull. rewrite Hfull. clear Hfull. split.
    - intros Hseq index q Hq.
      pose proof (lookup_lt_Some _ _ _ Hq) as Hindex.
      specialize (Hseq index). rewrite elem_of_seq in Hseq.
      specialize (Hseq ltac:(lia)).
      apply bool_decide_eq_true_1 in Hseq.
      unfold correctAnswer in Hseq. rewrite Hq in Hseq.
      by rewrite Hg, arrayGet_answersOf.
    - intros Hcorrect index Hindex. apply elem_of_seq in Hindex.
      destruct (lookup_lt_is_Some_2 questions index ltac:(lia)) as [q Hq].
      specialize (Hcorrect index q Hq).
      rewrite Hg, arrayGet_answersOf in Hcorrect by lia.
      apply bool_decide_eq_true_2. unfold correctAnswer. by rewrite Hq. }
  rewrite <- Hall. unfold verdict. case_decide; split; try done.
Qed.

Lemma verdict_perfect_iff_witness :
  verdict quizQuestions
    (chooseAnswer 2 1 (chooseAnswer 1 2 (chooseAnswer 0 1 pageInitialState))) = "Perfect!".
Proof.
  assert (Hreach : reachable quizQuestions
            (chooseAnswer 2 1 (chooseAnswer 1 2 (chooseAnswer 0 1 pageInitialState)))).
  { unfold reachable.
    eapply rtc_l.
    { apply (step_click quizQuestions _ (ChooseAnswer 0 1)).
      eapply rendered_option; reflexivity. }
    eapply rtc_l.
    { apply (step_click quizQuestions _ (ChooseAnswer 1 2)).
      eapply rendered_option; reflexivity. }
    eapply rtc_l.
    { apply (step_click quizQuestions _ (ChooseAnswer 2 1)).
      eapply rendered_option; reflexivity. }
    apply rtc_refl. }
  apply (proj2 (verdict_perfect_iff quizQuestions _ Hreach)).
  intros index q Hq.
  do 3 (destruct index as [| index]; [injection Hq as <-; reflexivity |]).
  discriminate Hq.
Defined.

(** X13. While Answering, a click on an option leaves that option as the only one
    of its question drawn chosen, and leaves the options of every other
    question drawn as they were. *)
Theorem click_option_shows_choice (index optionIndex : nat) (q : QuizQuestion.t)
    (s : PageState) :
  submitted s = false →
  OptionButton.className <$> optionButtons (chooseAnswer index optionIndex s) index q =
    imap (λ j (_ : string),
            "rounded-2xl border px-4 py-3 text-left text-sm transition sm:text-base " ++
            if decide (j = optionIndex)
            then "border-emerald-400/40 bg-emerald-500/10"
            else "border-white/10 bg-black/20 hover:border-emerald-300/50 hover:text-white")
         (QuizQuestion.options q) ∧
  ∀ other q', other ≠ index →
    OptionButton.className <$> optionButtons (chooseAnswer index optionIndex s) other q' =
    OptionButton.className <$> optionButtons s other q'.
Proof.
  intros Hsub.
  destruct (chooseAnswer_records index optionIndex s Hsub)
    as (Hget & Hframe & _ & Hsub').
  split.
  - unfold optionButtons. rewrite fmap_imap. apply imap_ext. intros j text _.
    cbn [compose OptionButton.className]. rewrite Hsub', Hget.
    unfold highlight. cbn [andb]. f_equal.
    destruct (decide (j = optionIndex)) as [-> | Hne].
    + by rewrite bool_decide_eq_true_2.
    + rewrite bool_decide_eq_false_2; [done |]. intros [= Heq]. lia.
  - intros other q' Hne. unfold optionButtons. rewrite !fmap_imap.
    apply imap_ext. intros j text _.
    cbn [compose OptionButton.className].
    by rewrite Hsub', Hsub, (Hframe other Hne).
Qed.

Lemma click_option_shows_choice_witness :
  ∃ q, quizQuestions !! 1 = Some q ∧
       OptionButton.className <$> optionButtons (chooseAnswer 1 2 pageInitialState) 1 q =
         [ "rounded-2xl border px-4 py-3 text-left text-sm transition sm:text-base border-white/10 bg-black/20 hover:border-emerald-300/50 hover:text-white";
           "rounded-2xl border px-4 py-3 text-left text-sm transition sm:text-base border-white/10 bg-black/20 hover:border-emerald-300/50 hover:text-white";
           "rounded-2xl border px-4 py-3 text-left text-sm transition sm:text-base border-emerald-400/40 bg-emerald-500/10";
           "rounded-2xl border px-4 py-3 text-left text-sm transition sm:text-base border-white/10 bg-black/20 hover:border-emerald-300/50 hover:text-white" ].
Proof.
  eexists. split; [reflexivity |].
  match goal with
  | |- _ <$> optionButtons _ _ ?q = _ =>
      exact (proj1 (click_option_shows_choice 1 2 q pageInitialState eq_refl))
  end.
Defined.

Example resultsLine_of_page :
  resultsLine quizQuestions pageInitialState =
    "Select one answer per question and submit when ready." ∧
  resultsLine quizQuestions
    (submit (runCalls [(0, 1); (1, 1); (2, 1)] pageInitialState)) =
    "You scored 2 / 3. Review the sections above and try again." ∧
  resultsLine quizQuestions
    (submit (runCalls [(0, 1); (1, 2); (2, 1)] pageInitialState)) =
    "You scored 3 / 3. Perfect!".
Proof. repeat split. Qed.
